(** * CatalogPage: the product list pipeline of the catalog screen

    A shallow embedding of [src/app/components/CatalogPage.tsx]: the
    filter-sort stage computed under [useMemo], the pagination state kept
    in [useState] cells, the [loadMoreProducts] callback with its
    [setTimeout] continuation, and the reset effect.

    Modelling conventions.
    - A JavaScript [number] is modelled by the rational it denotes; the
      catalog holds finite numbers only, and for finite doubles the sign
      of [a - b] is the sign of the exact difference.
    - Strings are byte strings; [toLowerCase] folds the ASCII letters.
    - [localeCompare] depends on the host's collation, so it is an
      interface ([Collator]) carrying what ECMA-262 requires of it.
    - [extendedProducts] is a module-level array that the [useMemo] body
      may sort in place; it is part of the state, and an array value is
      either that shared array or a freshly allocated one.
    - Every event handler runs against the last committed render. *)

From Stdlib Require Import String Ascii List Bool Arith ZArith QArith Lia Lqa.
From Stdlib Require Import Permutation Sorted OrderedTypeEx.
From Stdlib Require Import Qround DecimalString DecimalNat.
Import ListNotations.
Close Scope Q_scope.
Open Scope nat_scope.

(** ** JavaScript built-ins used by the component *)

Module JS.

Definition number := Q.

(** *** Strings *)

Definition isUpper (c : ascii) : bool :=
  (65 <=? nat_of_ascii c) && (nat_of_ascii c <=? 90).

Definition lowerChar (c : ascii) : ascii :=
  if isUpper c then ascii_of_nat (nat_of_ascii c + 32) else c.

Fixpoint toLowerCase (s : string) : string :=
  match s with
  | EmptyString => EmptyString
  | String c s' => String (lowerChar c) (toLowerCase s')
  end.

Fixpoint startsWith (s q : string) {struct q} : bool :=
  match q with
  | EmptyString => true
  | String c q' =>
      match s with
      | EmptyString => false
      | String d s' => Ascii.eqb d c && startsWith s' q'
      end
  end.

(** [s.includes(q)]: [q] occurs in [s] at some position. *)
Fixpoint includes (s q : string) : bool :=
  startsWith s q ||
  match s with
  | EmptyString => false
  | String _ s' => includes s' q
  end.

(** Truthiness of a string, and of a [string | null]. *)
Definition truthy (s : string) : bool := negb (String.eqb s EmptyString).

Definition truthyOrNull (c : option string) : bool :=
  match c with
  | Some s => truthy s
  | None => false
  end.

(** [Object.is] on [string | null]. *)
Definition sameValue (a b : option string) : bool :=
  match a, b with
  | Some x, Some y => String.eqb x y
  | None, None => true
  | _, _ => false
  end.

(** *** Arrays *)

(** [a.slice(i, j)] for [0 <= i <= j]; both ends are clamped to the
    length of [a]. *)
Definition slice {A : Type} (l : list A) (i j : nat) : list A :=
  firstn (j - i) (skipn i l).

(** The sign of a comparator's result, as [SortCompare] reads it. *)
Definition sign (v : number) : comparison := (v ?= 0)%Q.

Section Sort.
Context {A : Type} (comparefn : A -> A -> number).

(** [Array.prototype.sort] is stable (ECMAScript 2019). With a
    consistent comparator its result does not depend on the algorithm
    (see [sort_unique] below), so a stable insertion sort stands for
    it: [x] goes before the first [y] with [comparefn x y <= 0]. *)
Fixpoint insert (x : A) (l : list A) : list A :=
  match l with
  | [] => [x]
  | y :: l' =>
      match sign (comparefn x y) with
      | Gt => y :: insert x l'
      | _ => x :: l
      end
  end.

Fixpoint sort (l : list A) : list A :=
  match l with
  | [] => []
  | x :: l' => insert x (sort l')
  end.

(** ECMA-262, "consistent comparator": the three outcomes are
    exclusive by construction of [sign]. *)
Class Consistent : Prop := {
  cf_refl : forall a, sign (comparefn a a) = Eq;
  cf_sym : forall a b, sign (comparefn a b) = Eq -> sign (comparefn b a) = Eq;
  cf_trans_eq : forall a b c,
    sign (comparefn a b) = Eq -> sign (comparefn b c) = Eq ->
    sign (comparefn a c) = Eq;
  cf_trans_lt : forall a b c,
    sign (comparefn a b) = Lt -> sign (comparefn b c) = Lt ->
    sign (comparefn a c) = Lt;
  cf_trans_gt : forall a b c,
    sign (comparefn a b) = Gt -> sign (comparefn b c) = Gt ->
    sign (comparefn a c) = Gt
}.

Definition precedes (a b : A) : Prop := sign (comparefn a b) <> Gt.
Definition tied (a b : A) : bool :=
  match sign (comparefn a b) with Eq => true | _ => false end.
End Sort.

Arguments cf_refl {A comparefn Consistent} a.
Arguments cf_sym {A comparefn Consistent} a b _.
Arguments cf_trans_eq {A comparefn Consistent} a b c _ _.
Arguments cf_trans_lt {A comparefn Consistent} a b c _ _.
Arguments cf_trans_gt {A comparefn Consistent} a b c _ _.

(** [String.prototype.localeCompare]: the order is the host's, ECMA-262
    only asks for a consistent comparison. *)
Class Collator : Type := {
  localeCompare : string -> string -> number;
  localeCompare_consistent : Consistent localeCompare
}.

End JS.

(** ** Case-insensitive containment, as the specification words it *)

Definition sameLetter (a b : ascii) : Prop :=
  a = b \/
  (JS.isUpper a = true /\ nat_of_ascii b = nat_of_ascii a + 32) \/
  (JS.isUpper b = true /\ nat_of_ascii a = nat_of_ascii b + 32).

Inductive equalIgnoringCase : string -> string -> Prop :=
| eic_empty : equalIgnoringCase EmptyString EmptyString
| eic_letter a b s t :
    sameLetter a b -> equalIgnoringCase s t ->
    equalIgnoringCase (String a s) (String b t).


(** ** Data model *)

Record Product : Type := mkProduct {
  id : string;
  name : string;
  description : string;
  category : string;
  price : JS.number;
  rating : JS.number;
  reviews : Z
}.

Inductive SortKey : Type := SortName | SortPriceLow | SortPriceHigh | SortRating.

Inductive ViewMode : Type := Grid | ListView.

Definition SortKey_eqb (a b : SortKey) : bool :=
  match a, b with
  | SortName, SortName | SortPriceLow, SortPriceLow
  | SortPriceHigh, SortPriceHigh | SortRating, SortRating => true
  | _, _ => false
  end.

(** An array value: the module-level [extendedProducts] itself, or an
    array allocated by [filter], which nothing mutates once the [useMemo]
    body has returned it. *)
Inductive ArrayRef : Type :=
| ExtendedProducts
| Allocated (elements : list Product).

Definition items (ext : list Product) (r : ArrayRef) : list Product :=
  match r with
  | ExtendedProducts => ext
  | Allocated l => l
  end.

(** Reference equality, as the dependency check of [useEffect] sees it:
    two allocations are never the same object. *)
Definition sameArray (a b : ArrayRef) : bool :=
  match a, b with
  | ExtendedProducts, ExtendedProducts => true
  | _, _ => false
  end.

Definition PRODUCTS_PER_LOAD : nat := 12.

(** The closure of a scheduled [setTimeout] callback. *)
Record PendingLoad : Type := mkPending {
  currentLength : nat;
  capturedProducts : ArrayRef
}.

Record State : Type := mkState {
  extendedProducts : list Product;
  localSearchQuery : string;
  currentCategory : option string;
  sortBy : SortKey;
  viewMode : ViewMode;
  showFilters : bool;
  filteredProducts : ArrayRef;
  displayedProducts : list Product;
  loading : bool;
  hasMore : bool;
  timers : list PendingLoad
}.

(** The contents of the memoised [filteredProducts]. *)
Definition filtered (s : State) : list Product :=
  items (extendedProducts s) (filteredProducts s).

Inductive Event : Type :=
| SetLocalSearchQuery (q : string)
| SetCurrentCategory (c : option string)
| SetSortBy (k : SortKey)
| ClearFilters
| SetViewMode (v : ViewMode)
| ToggleFilters
| LoadMore
| TimerFires.

Definition isFilterChange (e : Event) : bool :=
  match e with
  | SetLocalSearchQuery _ | SetCurrentCategory _ | SetSortBy _ | ClearFilters => true
  | _ => false
  end.

(** ** The filter-sort stage (the [useMemo] body) *)

Definition searchPredicate (q : string) (product : Product) : bool :=
  JS.includes (JS.toLowerCase (name product)) (JS.toLowerCase q) ||
  JS.includes (JS.toLowerCase (description product)) (JS.toLowerCase q) ||
  JS.includes (JS.toLowerCase (category product)) (JS.toLowerCase q).

Definition categoryPredicate (c : option string) (product : Product) : bool :=
  match c with
  | Some cid => String.eqb (category product) cid
  | None => false
  end.

Definition filterStage (ext : list Product) (q : string) (c : option string)
  : ArrayRef :=
  let filtered := ExtendedProducts in
  let filtered :=
    if JS.truthy q
    then Allocated (filter (searchPredicate q) (items ext filtered))
    else filtered in
  let filtered :=
    if JS.truthyOrNull c
    then Allocated (filter (categoryPredicate c) (items ext filtered))
    else filtered in
  filtered.

Section Component.
Context {collator : JS.Collator}.

Definition comparator (k : SortKey) (a b : Product) : JS.number :=
  match k with
  | SortPriceLow => (price a - price b)%Q
  | SortPriceHigh => (price b - price a)%Q
  | SortRating => (rating b - rating a)%Q
  | SortName => JS.localeCompare (name a) (name b)
  end.

(** [filtered.sort(...)] sorts in place: when [filtered] is the shared
    array, it is [extendedProducts] that gets reordered. *)
Definition sortStage (ext : list Product) (r : ArrayRef) (k : SortKey)
  : list Product * ArrayRef :=
  match r with
  | ExtendedProducts => (JS.sort (comparator k) ext, ExtendedProducts)
  | Allocated l => (ext, Allocated (JS.sort (comparator k) l))
  end.

Definition computeFilteredProducts
  (ext : list Product) (q : string) (c : option string) (k : SortKey)
  : list Product * ArrayRef :=
  sortStage ext (filterStage ext q c) k.

(** The contents of the array the [useMemo] body returns. *)
Definition filterSortOutput
  (ext : list Product) (q : string) (c : option string) (k : SortKey)
  : list Product :=
  items (fst (computeFilteredProducts ext q c k))
        (snd (computeFilteredProducts ext q c k)).

(** ** The pagination stage *)

(** The effect with dependency [[filteredProducts]]. *)
Definition resetEffect (s : State) : State :=
  mkState (extendedProducts s) (localSearchQuery s) (currentCategory s)
    (sortBy s) (viewMode s) (showFilters s) (filteredProducts s)
    (JS.slice (filtered s) 0 PRODUCTS_PER_LOAD)
    (loading s)
    (PRODUCTS_PER_LOAD <? length (filtered s))
    (timers s).

(** A render after the filter inputs were set to [q], [c], [k]:
    [useMemo] recomputes only if one of them changed, and the reset
    effect runs only if the memoised value is a different object. *)
Definition render (s : State) (q : string) (c : option string) (k : SortKey)
  : State :=
  if String.eqb (localSearchQuery s) q
     && JS.sameValue (currentCategory s) c
     && SortKey_eqb (sortBy s) k
  then s
  else
    let '(ext', r') := computeFilteredProducts (extendedProducts s) q c k in
    let s' :=
      mkState ext' q c k (viewMode s) (showFilters s) r'
        (displayedProducts s) (loading s) (hasMore s) (timers s) in
    if sameArray (filteredProducts s) r' then s' else resetEffect s'.

(** First render and its effects, from the props [searchQuery] and
    [selectedCategory]. *)
Definition mount (catalog : list Product) (searchQuery : string)
  (selectedCategory : option string) : State :=
  let '(ext', r') :=
    computeFilteredProducts catalog searchQuery selectedCategory SortName in
  resetEffect
    (mkState ext' searchQuery selectedCategory SortName Grid false r'
       [] false true []).

Definition loadMoreProducts (s : State) : State :=
  if loading s || negb (hasMore s) then s
  else
    mkState (extendedProducts s) (localSearchQuery s) (currentCategory s)
      (sortBy s) (viewMode s) (showFilters s) (filteredProducts s)
      (displayedProducts s)
      true
      (hasMore s)
      (timers s ++ [mkPending (length (displayedProducts s)) (filteredProducts s)]).

(** The callback handed to [setTimeout]: it reads the length and the
    array captured when [loadMoreProducts] ran, and appends to the
    current [displayedProducts]. *)
Definition timeoutCallback (s : State) : State :=
  match timers s with
  | [] => s
  | t :: rest =>
      let nextProducts :=
        JS.slice (items (extendedProducts s) (capturedProducts t))
          (currentLength t) (currentLength t + PRODUCTS_PER_LOAD) in
      mkState (extendedProducts s) (localSearchQuery s) (currentCategory s)
        (sortBy s) (viewMode s) (showFilters s) (filteredProducts s)
        (if length nextProducts =? 0
         then displayedProducts s
         else displayedProducts s ++ nextProducts)
        false
        (if length nextProducts =? 0 then false else hasMore s)
        rest
  end.

Definition step (s : State) (e : Event) : State :=
  match e with
  | SetLocalSearchQuery q => render s q (currentCategory s) (sortBy s)
  | SetCurrentCategory c => render s (localSearchQuery s) c (sortBy s)
  | SetSortBy k => render s (localSearchQuery s) (currentCategory s) k
  | ClearFilters => render s EmptyString None (sortBy s)
  | SetViewMode v =>
      mkState (extendedProducts s) (localSearchQuery s) (currentCategory s)
        (sortBy s) v (showFilters s) (filteredProducts s)
        (displayedProducts s) (loading s) (hasMore s) (timers s)
  | ToggleFilters =>
      mkState (extendedProducts s) (localSearchQuery s) (currentCategory s)
        (sortBy s) (viewMode s) (negb (showFilters s)) (filteredProducts s)
        (displayedProducts s) (loading s) (hasMore s) (timers s)
  | LoadMore => loadMoreProducts s
  | TimerFires => timeoutCallback s
  end.

Definition run (s : State) (events : list Event) : State :=
  fold_left step events s.


End Component.

(** ** Properties as the specification words them *)


(** The same conjunction as the code evaluates it. *)
Definition keeps (q : string) (c : option string) (p : Product) : bool :=
  (if JS.truthy q then searchPredicate q p else true)
  && (if JS.truthyOrNull c then categoryPredicate c p else true).

Definition isPrefixOf {A : Type} (l1 l2 : list A) : Prop :=
  exists rest, l2 = l1 ++ rest.

Section Orders.
Context {collator : JS.Collator}.


(** [a] may stand immediately before [b] under a sort key. *)
Definition inOrder (k : SortKey) (a b : Product) : Prop :=
  match k with
  | SortName => (JS.localeCompare (name a) (name b) <= 0)%Q
  | SortPriceLow => (price a <= price b)%Q
  | SortPriceHigh => (price b <= price a)%Q
  | SortRating => (rating b <= rating a)%Q
  end.
End Orders.


(** ** Building the catalog ([generateMoreProducts], [extendedProducts]) *)

(** [Math.random] hands out the values of a stream one after the other;
    the position in the stream is the state the generator threads. *)
Definition Random := nat -> JS.number.

(** A non-negative integer inside a template literal. *)
Definition fromNumber (n : nat) : string :=
  NilEmpty.string_of_uint (Nat.to_uint n).

(** [String.fromCharCode(65 + (i % 26))]. *)
Definition modelLetter (i : nat) : string :=
  String (ascii_of_nat (65 + i mod 26)) EmptyString.

(** The object literal pushed by one turn of the loop; its three calls
    of [Math.random] read the stream at [drawn], [drawn + 1] and
    [drawn + 2]. *)
Definition variant (rnd : Random) (drawn : nat) (baseProduct : Product)
  (i : nat) : Product :=
  mkProduct
    (id baseProduct ++ "-" ++ fromNumber (i + 100))%string
    (name baseProduct ++ " - Model " ++ modelLetter i)%string
    (description baseProduct)
    (category baseProduct)
    (price baseProduct + (rnd drawn * 200000 - 100000))%Q
    ((35 # 10) + rnd (drawn + 1)%nat * (15 # 10))%Q
    (Qfloor (rnd (drawn + 2)%nat * 500)%Q + 10)%Z.

(** The [for] loop, [remaining] turns from index [i] on. With an empty
    [baseProducts] the index [i % 0] is [NaN], the element is
    [undefined], and reading its [id] throws: [None]. *)
Fixpoint generateLoop (rnd : Random) (baseProducts : list Product)
  (remaining i drawn : nat) (moreProducts : list Product)
  : option (list Product * nat) :=
  match remaining with
  | 0 => Some (moreProducts, drawn)
  | S remaining' =>
      match nth_error baseProducts (i mod length baseProducts) with
      | None => None
      | Some baseProduct =>
          generateLoop rnd baseProducts remaining' (S i) (drawn + 3)
            (moreProducts ++ [variant rnd drawn baseProduct i])
      end
  end.

Definition generateMoreProducts (rnd : Random) (drawn : nat)
  (baseProducts : list Product) (count : nat)
  : option (list Product * nat) :=
  generateLoop rnd baseProducts count 0 drawn [].

Definition allProducts (featuredProducts bestSellingProducts : list Product)
  : list Product :=
  featuredProducts ++ bestSellingProducts.

(** The initial value of the module-level [extendedProducts]. *)
Definition initialExtendedProducts (rnd : Random)
  (featuredProducts bestSellingProducts : list Product)
  : option (list Product) :=
  match generateMoreProducts rnd 0
          (allProducts featuredProducts bestSellingProducts) 200 with
  | Some (moreProducts, _) =>
      Some (allProducts featuredProducts bestSellingProducts ++ moreProducts)
  | None => None
  end.

(** ** Helpers of the render ([getCategoryName], [getProductCount]) *)

Module Category.
Record t : Type := mk { id : string; name : string }.
End Category.

(** [categories.find(cat => cat.id === categoryId)?.name || categoryId] *)
Definition getCategoryName (categories : list Category.t) (categoryId : string)
  : string :=
  match find (fun cat => String.eqb (Category.id cat) categoryId) categories with
  | Some cat =>
      if JS.truthy (Category.name cat) then Category.name cat else categoryId
  | None => categoryId
  end.

Definition getProductCount (s : State) (categoryId : string) : nat :=
  length (filter (fun product => String.eqb (category product) categoryId)
            (filtered s)).

(** The heading: [currentCategory ? getCategoryName(currentCategory) :
    'All Products']. *)
Definition heading (categories : list Category.t) (s : State) : string :=
  match currentCategory s with
  | Some cid =>
      if JS.truthy cid then getCategoryName categories cid else "All Products"
  | None => "All Products"
  end.



(** ** The scroll handler *)




(** ** Invariants of the pagination state *)




(** ** A host collation and sample catalogs

    Comparison by code units is one admissible [localeCompare]; it is
    used to run the component on concrete catalogs. *)

Definition codeUnitCompare (a b : string) : JS.number :=
  match String.compare a b with
  | Lt => (-1)%Q
  | Eq => 0%Q
  | Gt => 1%Q
  end.

Definition sample (n : string) (cat : string) (p : Z) : Product :=
  mkProduct n n EmptyString cat (inject_Z p) (9 # 2)%Q 10%Z.

Definition mixer : Product := sample "mixer" "kitchen" 1.

Definition catalog13 : list Product :=
  [ sample "amp" "audio" 13; sample "bulb" "light" 12;
    sample "cable" "audio" 11; sample "drill" "tools" 10;
    sample "earbuds" "audio" 9; sample "fan" "home" 8;
    sample "grill" "kitchen" 7; sample "hub" "office" 6;
    sample "iron" "home" 5; sample "jack" "tools" 4;
    sample "kettle" "kitchen" 3; sample "lamp" "light" 2;
    mixer ].

(** ** Facts about the built-ins *)

Lemma ascii_of_nat_of_ascii_eq (a b : ascii) :
  nat_of_ascii a = nat_of_ascii b -> a = b.
Proof.
  intro H. rewrite <- (ascii_nat_embedding a), <- (ascii_nat_embedding b).
  now rewrite H.
Qed.

Lemma isUpper_range (a : ascii) :
  JS.isUpper a = true <-> 65 <= nat_of_ascii a <= 90.
Proof.
  unfold JS.isUpper. rewrite andb_true_iff, !Nat.leb_le. tauto.
Qed.

Lemma lowerChar_upper (a : ascii) :
  JS.isUpper a = true ->
  nat_of_ascii (JS.lowerChar a) = nat_of_ascii a + 32.
Proof.
  intro H. unfold JS.lowerChar. rewrite H.
  apply isUpper_range in H. apply nat_ascii_embedding. lia.
Qed.

Lemma lowerChar_other (a : ascii) :
  JS.isUpper a = false -> JS.lowerChar a = a.
Proof. intro H. unfold JS.lowerChar. now rewrite H. Qed.

Lemma lowerChar_sameLetter (a b : ascii) :
  JS.lowerChar a = JS.lowerChar b <-> sameLetter a b.
Proof.
  unfold sameLetter.
  destruct (JS.isUpper a) eqn:Ha, (JS.isUpper b) eqn:Hb.
  - pose proof (lowerChar_upper a Ha) as La. pose proof (lowerChar_upper b Hb) as Lb.
    apply isUpper_range in Ha, Hb. split.
    + intro E. left. apply ascii_of_nat_of_ascii_eq. rewrite E in La. lia.
    + intros [-> | [[_ E] | [_ E]]]; [reflexivity | lia | lia].
  - pose proof (lowerChar_upper a Ha) as La. rewrite (lowerChar_other b Hb).
    split.
    + intro E. right. left. split; [reflexivity|]. now rewrite <- E.
    + intros [-> | [[_ E] | [F _]]]; [congruence | | discriminate].
      apply ascii_of_nat_of_ascii_eq. lia.
  - pose proof (lowerChar_upper b Hb) as Lb. rewrite (lowerChar_other a Ha).
    split.
    + intro E. right. right. split; [reflexivity|]. now rewrite E.
    + intros [-> | [[F _] | [_ E]]]; [congruence | discriminate | ].
      apply ascii_of_nat_of_ascii_eq. lia.
  - rewrite (lowerChar_other a Ha), (lowerChar_other b Hb). split.
    + now left.
    + intros [E | [[F _] | [F _]]]; [assumption | discriminate | discriminate].
Qed.

Lemma toLowerCase_equalIgnoringCase (s t : string) :
  JS.toLowerCase s = JS.toLowerCase t <-> equalIgnoringCase s t.
Proof.
  split.
  - revert t. induction s as [|a s IH]; intros [|b t] E; simpl in E;
      try discriminate.
    + constructor.
    + injection E as E1 E2. constructor.
      * now apply lowerChar_sameLetter.
      * now apply IH.
  - induction 1 as [|a b s t L _ IH]; simpl.
    + reflexivity.
    + apply lowerChar_sameLetter in L. now rewrite L, IH.
Qed.






Section SortFacts.
Context {A : Type} (comparefn : A -> A -> JS.number).

Local Abbreviation insert := (JS.insert comparefn).
Local Abbreviation sort := (JS.sort comparefn).
Local Abbreviation precedes := (JS.precedes comparefn).
Local Abbreviation tied := (JS.tied comparefn).
Local Abbreviation sgn a b := (JS.sign (comparefn a b)).

Lemma insert_perm (x : A) (l : list A) : Permutation (insert x l) (x :: l).
Proof.
  induction l as [|y l IH]; simpl; [reflexivity|].
  destruct (sgn x y); try reflexivity.
  rewrite IH. apply perm_swap.
Qed.

Lemma sort_perm (l : list A) : Permutation (sort l) l.
Proof.
  induction l as [|x l IH]; simpl; [constructor|].
  rewrite insert_perm. now constructor.
Qed.



Context {consistent : JS.Consistent comparefn}.

Lemma gt_flip (a b : A) : sgn a b = Gt -> sgn b a = Lt.
Proof.
  intro H. destruct (sgn b a) eqn:E; [ | reflexivity | ].
  - pose proof (JS.cf_sym _ _ E). congruence.
  - pose proof (JS.cf_trans_gt _ _ _ H E) as F.
    rewrite JS.cf_refl in F. discriminate.
Qed.

Lemma lt_flip (a b : A) : sgn a b = Lt -> sgn b a = Gt.
Proof.
  intro H. destruct (sgn b a) eqn:E; [ | | reflexivity].
  - pose proof (JS.cf_sym _ _ E). congruence.
  - pose proof (JS.cf_trans_lt _ _ _ H E) as F.
    rewrite JS.cf_refl in F. discriminate.
Qed.

Lemma tied_true (a b : A) : tied a b = true <-> sgn a b = Eq.
Proof. unfold JS.tied. destruct (sgn a b); split; congruence. Qed.

Lemma tied_refl (a : A) : tied a a = true.
Proof. apply tied_true, JS.cf_refl. Qed.

Lemma tied_sym (a b : A) : tied a b = tied b a.
Proof.
  destruct (tied a b) eqn:E1, (tied b a) eqn:E2; try reflexivity.
  - apply tied_true in E1. pose proof (JS.cf_sym _ _ E1) as F.
    apply tied_true in F. congruence.
  - apply tied_true in E2. pose proof (JS.cf_sym _ _ E2) as F.
    apply tied_true in F. congruence.
Qed.

Lemma precedes_trans (a b c : A) :
  precedes a b -> precedes b c -> precedes a c.
Proof.
  unfold JS.precedes. intros Hab Hbc Hac.
  destruct (sgn a b) eqn:Eab; [ | | congruence];
    destruct (sgn b c) eqn:Ebc; try congruence.
  - pose proof (JS.cf_trans_eq _ _ _ Eab Ebc). congruence.
  - apply lt_flip in Ebc.
    pose proof (JS.cf_trans_gt _ _ _ Hac Ebc). congruence.
  - apply lt_flip in Eab.
    pose proof (JS.cf_trans_gt _ _ _ Eab Hac). congruence.
  - pose proof (JS.cf_trans_lt _ _ _ Eab Ebc). congruence.
Qed.

Lemma insert_sorted (x : A) (l : list A) :
  StronglySorted precedes l -> StronglySorted precedes (insert x l).
Proof.
  induction 1 as [|y l Hl IH Hy]; simpl.
  - constructor; constructor.
  - destruct (sgn x y) eqn:E.
    + constructor; [now constructor|].
      assert (Hxy : precedes x y) by (unfold JS.precedes; congruence).
      constructor; [assumption|].
      eapply Forall_impl; [|exact Hy]. intros z. now apply precedes_trans.
    + constructor; [now constructor|].
      assert (Hxy : precedes x y) by (unfold JS.precedes; congruence).
      constructor; [assumption|].
      eapply Forall_impl; [|exact Hy]. intros z. now apply precedes_trans.
    + constructor; [assumption|].
      rewrite Forall_forall in *. intros z Hz.
      apply (Permutation_in _ (insert_perm x l)) in Hz.
      destruct Hz as [<- | Hz]; [|now apply Hy].
      apply gt_flip in E. unfold JS.precedes. congruence.
Qed.

Lemma sort_sorted (l : list A) : StronglySorted precedes (sort l).
Proof.
  induction l as [|x l IH]; simpl; [constructor | now apply insert_sorted].
Qed.

Lemma insert_stable (z x : A) (l : list A) :
  filter (tied z) (insert x l) = filter (tied z) (x :: l).
Proof.
  induction l as [|y l IH]; [reflexivity|].
  simpl insert. destruct (sgn x y) eqn:E; try reflexivity.
  change (filter (tied z) (y :: insert x l))
    with (if tied z y then y :: filter (tied z) (insert x l)
          else filter (tied z) (insert x l)).
  rewrite IH. simpl.
  destruct (tied z y) eqn:Ey, (tied z x) eqn:Ex; try reflexivity.
  rewrite tied_sym in Ex. apply tied_true in Ex, Ey.
  pose proof (JS.cf_trans_eq _ _ _ Ex Ey). congruence.
Qed.

(** Stability: the elements tied with any [z] keep their order. *)
Lemma sort_stable (z : A) (l : list A) :
  filter (tied z) (sort l) = filter (tied z) l.
Proof.
  induction l as [|x l IH]; [reflexivity|].
  simpl sort. rewrite insert_stable. simpl. now rewrite IH.
Qed.

Lemma sorted_stable_unique (l1 l2 : list A) :
  StronglySorted precedes l1 -> StronglySorted precedes l2 ->
  (forall z, filter (tied z) l1 = filter (tied z) l2) ->
  l1 = l2.
Proof.
  intros S1. revert l2.
  induction S1 as [|a l1 S1 IH Ha]; intros l2 S2 H.
  - destruct l2 as [|b l2]; [reflexivity|].
    specialize (H b). simpl in H. rewrite tied_refl in H. discriminate.
  - destruct l2 as [|b l2].
    + specialize (H a). simpl in H. rewrite tied_refl in H. discriminate.
    + inversion S2 as [|? ? S2' Hb]; subst.
      assert (a = b) as <-.
      { pose proof (H a) as Pa. pose proof (H b) as Pb. simpl in Pa, Pb.
        rewrite tied_refl in Pa, Pb. rewrite (tied_sym b a) in Pb.
        destruct (tied a b) eqn:T; [congruence|].
        assert (In a l2) as Ia.
        { eapply proj1, filter_In. rewrite <- Pa. now left. }
        assert (In b l1) as Ib.
        { eapply proj1, filter_In. rewrite Pb. now left. }
        rewrite Forall_forall in Ha, Hb.
        specialize (Ha _ Ib). specialize (Hb _ Ia).
        unfold JS.precedes in Ha, Hb. unfold JS.tied in T.
        destruct (sgn a b) eqn:E; try congruence.
        apply lt_flip in E. congruence. }
      f_equal. apply IH; [assumption|]. intro z.
      specialize (H z). simpl in H.
      destruct (tied z a); congruence.
Qed.

(** Any stable rearrangement of [l] that is in order is the one the
    insertion sort computes: the model of [Array.prototype.sort] does
    not depend on the algorithm. *)
Lemma sort_unique (l l' : list A) :
  StronglySorted precedes l' ->
  (forall z, filter (tied z) l' = filter (tied z) l) ->
  l' = sort l.
Proof.
  intros S H. apply sorted_stable_unique; [assumption | apply sort_sorted|].
  intro z. now rewrite sort_stable.
Qed.

Lemma sort_sorted_id (l : list A) :
  StronglySorted precedes l -> sort l = l.
Proof. intro S. symmetry. now apply sort_unique. Qed.

End SortFacts.

(** ** The comparators of the sort switch are consistent *)

Lemma sign_minus (x y : Q) : JS.sign (x - y)%Q = (x ?= y)%Q.
Proof.
  unfold JS.sign. destruct (Qcompare_spec x y) as [E | E | E].
  - apply (proj1 (Qeq_alt _ _)). lra.
  - apply (proj1 (Qlt_alt _ _)). lra.
  - apply (proj1 (Qgt_alt _ _)). lra.
Qed.

Section KeyComparators.
Context {A : Type} (key : A -> Q).

Lemma ascending_consistent : JS.Consistent (fun a b => (key a - key b)%Q).
Proof.
  constructor; intros *; rewrite ?sign_minus;
    rewrite <- ?Qeq_alt, <- ?Qlt_alt, <- ?Qgt_alt; lra.
Qed.

Lemma descending_consistent : JS.Consistent (fun a b => (key b - key a)%Q).
Proof.
  constructor; intros *; rewrite ?sign_minus;
    rewrite <- ?Qeq_alt, <- ?Qlt_alt, <- ?Qgt_alt; lra.
Qed.
End KeyComparators.

Lemma consistent_on_key {A B : Type} (f : B -> B -> JS.number) (g : A -> B) :
  JS.Consistent f -> JS.Consistent (fun a b => f (g a) (g b)).
Proof.
  intro H. constructor; intros *.
  - apply JS.cf_refl.
  - apply JS.cf_sym.
  - apply JS.cf_trans_eq.
  - apply JS.cf_trans_lt.
  - apply JS.cf_trans_gt.
Qed.

Lemma StronglySorted_impl {A : Type} (R1 R2 : A -> A -> Prop) (l : list A) :
  (forall a b, R1 a b -> R2 a b) ->
  StronglySorted R1 l -> StronglySorted R2 l.
Proof.
  intros H. induction 1 as [|a l S IH F]; constructor; [assumption|].
  eapply Forall_impl; [|exact F]. intro b. apply H.
Qed.

Lemma filter_all {A : Type} (l : list A) : filter (fun _ => true) l = l.
Proof. induction l as [|x l IH]; simpl; [reflexivity | now rewrite IH]. Qed.

Lemma filter_twice {A : Type} (f g : A -> bool) (l : list A) :
  filter g (filter f l) = filter (fun x => f x && g x) l.
Proof.
  induction l as [|x l IH]; simpl; [reflexivity|].
  destruct (f x); simpl; [destruct (g x)|]; now rewrite IH.
Qed.

Lemma filter_perm {A : Type} (f : A -> bool) (l l' : list A) :
  Permutation l l' -> Permutation (filter f l) (filter f l').
Proof.
  induction 1 as [| x l l' _ IH | x y l | l l' l'' _ IH1 _ IH2]; simpl.
  - constructor.
  - destruct (f x); [now constructor | assumption].
  - destruct (f x), (f y); try reflexivity. apply perm_swap.
  - now transitivity (filter f l').
Qed.

Section StageFacts.
Context {collator : JS.Collator}.

#[local] Instance comparator_consistent (k : SortKey) :
  JS.Consistent (comparator k).
Proof.
  destruct k; unfold comparator.
  - apply (consistent_on_key JS.localeCompare name), JS.localeCompare_consistent.
  - apply (ascending_consistent price).
  - apply (descending_consistent price).
  - apply (descending_consistent rating).
Qed.

Lemma precedes_inOrder (k : SortKey) (a b : Product) :
  JS.precedes (comparator k) a b <-> inOrder k a b.
Proof.
  unfold JS.precedes. destruct k; simpl; rewrite ?sign_minus;
    unfold JS.sign; now rewrite Qle_alt.
Qed.



Lemma sort_inOrder (k : SortKey) (l : list Product) :
  StronglySorted (inOrder k) (JS.sort (comparator k) l).
Proof.
  apply StronglySorted_impl with (R1 := JS.precedes (comparator k)).
  - intros a b. apply precedes_inOrder.
  - apply sort_sorted, comparator_consistent.
Qed.


Lemma filterSortOutput_eq (ext : list Product) (q : string)
  (c : option string) (k : SortKey) :
  filterSortOutput ext q c k =
  JS.sort (comparator k) (items ext (filterStage ext q c)).
Proof.
  unfold filterSortOutput, computeFilteredProducts, sortStage.
  destruct (filterStage ext q c); reflexivity.
Qed.

Lemma filterStage_items (ext : list Product) (q : string) (c : option string) :
  items ext (filterStage ext q c) = filter (keeps q c) ext.
Proof.
  unfold filterStage, keeps.
  destruct (JS.truthy q), (JS.truthyOrNull c); simpl.
  - apply filter_twice.
  - apply filter_ext. intro p. now rewrite andb_true_r.
  - reflexivity.
  - symmetry. apply filter_all.
Qed.

Lemma truthy_spec (q : string) : JS.truthy q = true <-> q <> EmptyString.
Proof.
  unfold JS.truthy. rewrite negb_true_iff. apply String.eqb_neq.
Qed.



End StageFacts.


(** ** The filter-sort stage: claims *)

Section StageClaims.
Context {collator : JS.Collator}.



(** C10. The output of the filter-sort stage is a permutation of the
    products of the catalog that satisfy the search and category
    predicates; with an empty query and no category it is a
    permutation of the whole catalog; and the shared catalog array,
    which the stage may sort in place, is only reordered. *)
Theorem filterSortOutput_permutation
  (ext : list Product) (q : string) (c : option string) (k : SortKey) :
  Permutation (filterSortOutput ext q c k) (filter (keeps q c) ext)
  /\ Permutation (filterSortOutput ext EmptyString None k) ext
  /\ Permutation (fst (computeFilteredProducts ext q c k)) ext.
Proof.
  split; [|split].
  - rewrite filterSortOutput_eq, filterStage_items. apply sort_perm.
  - rewrite filterSortOutput_eq. apply sort_perm.
  - unfold computeFilteredProducts, sortStage.
    destruct (filterStage ext q c); simpl; [apply sort_perm | reflexivity].
Qed.

End StageClaims.

(** ** The pagination stage: invariants *)


Lemma slice_prefix {A : Type} (l : list A) (n : nat) :
  JS.slice l 0 n = firstn n l.
Proof. unfold JS.slice. now rewrite Nat.sub_0_r. Qed.




Lemma isPrefixOf_firstn {A : Type} (l : list A) (n : nat) :
  isPrefixOf (firstn n l) l.
Proof. exists (skipn n l). symmetry. apply firstn_skipn. Qed.


Section PaginationFacts.
Context {collator : JS.Collator}.


Lemma render_timers (s : State) q c k :
  timers (render s q c k) = timers s.
Proof.
  unfold render. destruct (_ && _); [reflexivity|].
  destruct (computeFilteredProducts _ _ _ _) as [ext' r'].
  destruct (sameArray _ _); reflexivity.
Qed.

Lemma filterChange_is_render (s : State) (e : Event) :
  isFilterChange e = true -> exists q c k, step s e = render s q c k.
Proof. destruct e; try discriminate; intros _; simpl; eauto. Qed.




Lemma run_app (s : State) (l1 l2 : list Event) :
  run s (l1 ++ l2) = run (run s l1) l2.
Proof. apply fold_left_app. Qed.






End PaginationFacts.

(** ** Comparison by code units is a collation *)

Lemma sign_codeUnitCompare (a b : string) :
  JS.sign (codeUnitCompare a b) = String.compare a b.
Proof. unfold codeUnitCompare. now destruct (String.compare a b). Qed.

Lemma codeUnitCompare_consistent : JS.Consistent codeUnitCompare.
Proof.
  assert (G : forall a b, String.compare a b = Gt -> String_as_OT.lt b a).
  { intros a b H. apply String_as_OT.cmp_lt. unfold String_as_OT.cmp.
    rewrite String_as_OT.cmp_antisym. unfold String_as_OT.cmp.
    now rewrite H. }
  assert (G' : forall a b, String_as_OT.lt b a -> String.compare a b = Gt).
  { intros a b H. apply String_as_OT.cmp_lt in H. unfold String_as_OT.cmp in H.
    change (String_as_OT.cmp a b = Gt). rewrite String_as_OT.cmp_antisym.
    unfold String_as_OT.cmp. now rewrite H. }
  constructor; intros *; rewrite !sign_codeUnitCompare.
  - now apply String_as_OT.cmp_eq.
  - intro H. apply String_as_OT.cmp_eq in H. now apply String_as_OT.cmp_eq.
  - intros H1 H2. apply String_as_OT.cmp_eq in H1, H2.
    apply String_as_OT.cmp_eq. congruence.
  - intros H1 H2. apply String_as_OT.cmp_lt in H1, H2.
    apply String_as_OT.cmp_lt. eapply String_as_OT.lt_trans; eassumption.
  - intros H1 H2. apply G in H1, H2. apply G'.
    eapply String_as_OT.lt_trans; eassumption.
Qed.

Definition codeUnitCollator : JS.Collator :=
  {| JS.localeCompare := codeUnitCompare;
     JS.localeCompare_consistent := codeUnitCompare_consistent |}.

(** Under this collation the name order is the lexicographic order of
    the code units. *)
Lemma codeUnit_inOrder (a b : Product) :
  inOrder (collator := codeUnitCollator) SortName a b <->
  String.leb (name a) (name b) = true.
Proof.
  unfold inOrder, String.leb. simpl. unfold codeUnitCompare.
  destruct (String.compare (name a) (name b)); split; intro H;
    try reflexivity; try discriminate; try (now unfold Qle; simpl).
Qed.

(** ** The pagination stage: claims *)

Section PaginationClaims.
Context {collator : JS.Collator}.

Lemma mount_spec (catalog : list Product) (q : string) (c : option string) :
  let s := mount catalog q c in
  filtered s = filterSortOutput catalog q c SortName
  /\ displayedProducts s = firstn PRODUCTS_PER_LOAD (filtered s)
  /\ hasMore s = (PRODUCTS_PER_LOAD <? length (filtered s))
  /\ loading s = false
  /\ timers s = [].
Proof.
  unfold mount, filterSortOutput.
  destruct (computeFilteredProducts catalog q c SortName) as [ext' r'].
  simpl. unfold filtered. simpl. now rewrite slice_prefix.
Qed.


(** The stage returns the shared array only when neither filter is
    active; an empty-string category counts as no category. *)
Lemma filterStage_shared (ext : list Product) (q : string) (c : option string) :
  filterStage ext q c = ExtendedProducts <->
  JS.truthy q = false /\ JS.truthyOrNull c = false.
Proof.
  unfold filterStage. destruct (JS.truthy q), (JS.truthyOrNull c); simpl;
    split; try discriminate; try tauto; intros [? ?]; discriminate.
Qed.

(** A render in which the memoised array is a new object resets the
    page, as the effect is written. *)
Lemma render_resets (s : State) (q : string) (c : option string) (k : SortKey) :
  String.eqb (localSearchQuery s) q && JS.sameValue (currentCategory s) c
    && SortKey_eqb (sortBy s) k = false ->
  sameArray (filteredProducts s) (filterStage (extendedProducts s) q c) = false ->
  displayedProducts (render s q c k)
  = firstn PRODUCTS_PER_LOAD (filtered (render s q c k))
  /\ hasMore (render s q c k)
     = (PRODUCTS_PER_LOAD <? length (filtered (render s q c k))).
Proof.
  intros D R. unfold render. rewrite D.
  unfold computeFilteredProducts, sortStage.
  destruct (filterStage (extendedProducts s) q c);
    destruct (filteredProducts s); simpl in R; try discriminate;
    unfold resetEffect, filtered; simpl; now rewrite slice_prefix.
Qed.

(** With no filter active the memoised array is the shared one, and a
    render that only changes the sort key re-sorts it in place and
    leaves the page alone. *)
Lemma sort_change_keeps_page (s : State) (k : SortKey) :
  JS.truthy (localSearchQuery s) = false ->
  JS.truthyOrNull (currentCategory s) = false ->
  filteredProducts s = ExtendedProducts ->
  SortKey_eqb (sortBy s) k = false ->
  let s' := step s (SetSortBy k) in
  extendedProducts s' = JS.sort (comparator k) (extendedProducts s)
  /\ filteredProducts s' = ExtendedProducts
  /\ displayedProducts s' = displayedProducts s
  /\ hasMore s' = hasMore s.
Proof.
  intros Q C R K. simpl. unfold render. rewrite K, andb_false_r.
  unfold computeFilteredProducts, sortStage.
  rewrite (proj2 (filterStage_shared (extendedProducts s)
                    (localSearchQuery s) (currentCategory s)) (conj Q C)).
  rewrite R. simpl. auto.
Qed.








Lemma mount_prefix (catalog : list Product) (q : string) (c : option string) :
  timers (mount catalog q c) = []
  /\ isPrefixOf (displayedProducts (mount catalog q c))
                (filtered (mount catalog q c)).
Proof.
  destruct (mount_spec catalog q c) as (_ & D & _ & _ & T).
  split; [assumption|]. rewrite D. apply isPrefixOf_firstn.
Qed.


End PaginationClaims.

(** ** The component on concrete catalogs *)

Section Scenarios.
Local Existing Instance codeUnitCollator.

(** C3. With no search query and no category, [filteredProducts] is
    the shared [extendedProducts] array itself. Changing the sort key
    re-sorts that array in place and hands the same object back, so
    the reset effect does not run: [displayedProducts] keeps the
    thirteen products it had, in name order, instead of becoming the
    first twelve products by price. *)
Theorem sort_change_skips_reset :
  let s0 := run (mount catalog13 "" None) [LoadMore; TimerFires] in
  let s := step s0 (SetSortBy SortPriceLow) in
  sortBy s = SortPriceLow
  /\ filtered s = JS.sort (comparator SortPriceLow) catalog13
  /\ nth_error (filtered s) 0 = Some mixer
  /\ nth_error (displayedProducts s) 0 = Some (sample "amp" "audio" 13)
  /\ displayedProducts s = displayedProducts s0
  /\ length (displayedProducts s) = 13
  /\ length (displayedProducts s)
     <> Nat.min PRODUCTS_PER_LOAD (length (filtered s))
  /\ displayedProducts s <> JS.slice (filtered s) 0 PRODUCTS_PER_LOAD.
Proof.
  vm_compute. repeat split; try reflexivity; discriminate.
Qed.









End Scenarios.


(** ** Building the catalog: facts *)

Lemma generateLoop_empty (rnd : Random) (remaining i drawn : nat)
  (moreProducts : list Product) :
  generateLoop rnd [] (S remaining) i drawn moreProducts = None.
Proof. simpl. now destruct i. Qed.

(** The loop on a non-empty base: turn [j] appends the variant of the
    base product at [(i + j) mod n], reading the stream from
    [drawn + 3 * j]. *)
Lemma generateLoop_run (rnd : Random) (baseProducts : list Product)
  (remaining : nat) :
  baseProducts <> [] ->
  forall i drawn moreProducts,
  exists added,
    generateLoop rnd baseProducts remaining i drawn moreProducts
    = Some (moreProducts ++ added, drawn + 3 * remaining)
    /\ length added = remaining
    /\ forall j, j < remaining ->
       exists baseProduct,
         nth_error baseProducts ((i + j) mod length baseProducts) = Some baseProduct
         /\ nth_error added j = Some (variant rnd (drawn + 3 * j) baseProduct (i + j)).
Proof.
  intro NE. induction remaining as [|remaining IH]; intros i drawn moreProducts.
  - exists []. simpl. rewrite app_nil_r, Nat.add_0_r.
    split; [reflexivity|]. split; [reflexivity|]. intros j Hj. lia.
  - simpl generateLoop.
    assert (Hlen : length baseProducts <> 0) by (destruct baseProducts; simpl; congruence).
    destruct (nth_error baseProducts (i mod length baseProducts)) as [b|] eqn:Hb.
    2:{ apply nth_error_None in Hb.
        pose proof (Nat.mod_upper_bound i _ Hlen). lia. }
    destruct (IH (S i) (drawn + 3) (moreProducts ++ [variant rnd drawn b i]))
      as (added & E & L & N).
    exists (variant rnd drawn b i :: added).
    split; [|split].
    + rewrite E, <- app_assoc. simpl. do 2 f_equal. lia.
    + simpl. now rewrite L.
    + intros [|j] Hj.
      * exists b. replace (drawn + 3 * 0) with drawn by lia.
        rewrite Nat.add_0_r. now split.
      * destruct (N j) as (b' & Hb' & Hn); [lia|].
        exists b'.
        replace (i + S j) with (S i + j) by lia.
        replace (drawn + 3 * S j) with (drawn + 3 + 3 * j) by lia.
        split; [exact Hb' | exact Hn].
Qed.

Lemma generateMoreProducts_elements (rnd : Random) (drawn : nat)
  (baseProducts : list Product) (count : nat)
  (moreProducts : list Product) (drawn' : nat) :
  generateMoreProducts rnd drawn baseProducts count = Some (moreProducts, drawn') ->
  drawn' = drawn + 3 * count
  /\ length moreProducts = count
  /\ forall i, i < count ->
     exists baseProduct,
       nth_error baseProducts (i mod length baseProducts) = Some baseProduct
       /\ nth_error moreProducts i = Some (variant rnd (drawn + 3 * i) baseProduct i).
Proof.
  unfold generateMoreProducts. intro H.
  destruct baseProducts as [|b0 baseProducts].
  - destruct count as [|count].
    + simpl in H. injection H as <- <-.
      split; [lia|]. split; [reflexivity|]. intros i Hi. lia.
    + rewrite generateLoop_empty in H. discriminate.
  - destruct (generateLoop_run rnd (b0 :: baseProducts) count
                ltac:(discriminate) 0 drawn []) as (added & E & L & N).
    rewrite E in H. simpl in H. injection H as <- <-.
    split; [reflexivity|]. split; [assumption|]. exact N.
Qed.

(** Decimal numerals hold no dash, and print injectively. *)
Lemma numeral_no_dash (d : Decimal.uint) (pre post : string) :
  NilEmpty.string_of_uint d <> (pre ++ String "-" post)%string.
Proof.
  revert pre. induction d; intros [|c pre] E; simpl in E;
    try discriminate; injection E as _ E; now apply IHd in E.
Qed.

Lemma fromNumber_inj (m n : nat) : fromNumber m = fromNumber n -> m = n.
Proof.
  unfold fromNumber. intro E. apply Unsigned.to_uint_inj.
  pose proof (NilEmpty.usu (Nat.to_uint m)) as Hm.
  pose proof (NilEmpty.usu (Nat.to_uint n)) as Hn.
  rewrite E in Hm. congruence.
Qed.

Lemma dash_suffix_inj (a b r1 r2 : string) :
  (forall pre post, r1 <> (pre ++ String "-" post)%string) ->
  (forall pre post, r2 <> (pre ++ String "-" post)%string) ->
  (a ++ String "-" r1 = b ++ String "-" r2)%string ->
  a = b /\ r1 = r2.
Proof.
  intros H1 H2. revert b. induction a as [|x a IH]; intros [|y b] E; simpl in E.
  - injection E as E. now split.
  - injection E as _ E. now apply H1 in E.
  - injection E as _ E. symmetry in E. now apply H2 in E.
  - injection E as -> E. destruct (IH _ E) as [-> ->]. now split.
Qed.

Lemma variant_id_inj (rnd : Random) (d1 d2 : nat) (b1 b2 : Product) (i j : nat) :
  id (variant rnd d1 b1 i) = id (variant rnd d2 b2 j) -> i = j.
Proof.
  unfold variant. simpl. intro E.
  apply dash_suffix_inj in E; try (intros; apply numeral_no_dash).
  destruct E as [_ E]. apply fromNumber_inj in E. lia.
Qed.


(** A stream for running the generator: every draw is one half. *)
Definition halves : Random := fun _ => (1 # 2)%Q.

(** ** Building the catalog: properties *)

(** X1. [generateMoreProducts] throws exactly when the base list is
    empty and at least one product is asked for; otherwise it returns
    exactly [count] products and has drawn three random values for each
    (so [count = 0] gives the empty list, also on an empty base). *)
Theorem generateMoreProducts_outcome (rnd : Random) (drawn : nat)
  (baseProducts : list Product) (count : nat) :
  (generateMoreProducts rnd drawn baseProducts count = None
   <-> baseProducts = [] /\ 0 < count)
  /\ (forall moreProducts drawn',
        generateMoreProducts rnd drawn baseProducts count
        = Some (moreProducts, drawn') ->
        length moreProducts = count /\ drawn' = drawn + 3 * count).
Proof.
  split.
  - unfold generateMoreProducts. destruct baseProducts as [|b0 baseProducts].
    + destruct count as [|count].
      * simpl. split; [discriminate | intros [_ H]; lia].
      * rewrite generateLoop_empty. split; [intros _; split; [reflexivity | lia] | reflexivity].
    + destruct (generateLoop_run rnd (b0 :: baseProducts) count
                  ltac:(discriminate) 0 drawn []) as (added & E & _).
      rewrite E. split; [discriminate | intros [H _]; discriminate].
  - intros moreProducts drawn' H.
    apply generateMoreProducts_elements in H. tauto.
Qed.

(** X2. The generator walks the base list round-robin: product [i] of
    the result is made from base product [i mod n]; it keeps that
    product's description and category, its id is the base id followed
    by a dash and [i + 100], and its name is the base name followed by
    [" - Model "] and the letter number [i mod 26] of A..Z. *)
Theorem generateMoreProducts_round_robin (rnd : Random) (drawn : nat)
  (baseProducts : list Product) (count : nat)
  (moreProducts : list Product) (drawn' : nat) (i : nat) :
  generateMoreProducts rnd drawn baseProducts count = Some (moreProducts, drawn') ->
  i < count ->
  exists baseProduct product,
    nth_error baseProducts (i mod length baseProducts) = Some baseProduct
    /\ nth_error moreProducts i = Some product
    /\ description product = description baseProduct
    /\ category product = category baseProduct
    /\ id product = (id baseProduct ++ "-" ++ fromNumber (i + 100))%string
    /\ name product
       = (name baseProduct ++ " - Model "
          ++ String (ascii_of_nat (65 + i mod 26)) EmptyString)%string
    /\ JS.isUpper (ascii_of_nat (65 + i mod 26)) = true.
Proof.
  intros H Hi. apply generateMoreProducts_elements in H.
  destruct H as (_ & _ & N). destruct (N i Hi) as (b & Hb & Hn).
  exists b, (variant rnd (drawn + 3 * i) b i).
  repeat split; try assumption.
  apply isUpper_range. pose proof (Nat.mod_upper_bound i 26 ltac:(lia)).
  rewrite nat_ascii_embedding; lia.
Qed.

Lemma generateMoreProducts_round_robin_witness :
  generateMoreProducts halves 0 [mixer] 3
  = Some ([variant halves 0 mixer 0; variant halves 3 mixer 1;
           variant halves 6 mixer 2], 9)
  /\ 2 < 3
  /\ exists baseProduct product,
    nth_error [mixer] (2 mod length [mixer]) = Some baseProduct
    /\ nth_error [variant halves 0 mixer 0; variant halves 3 mixer 1;
                  variant halves 6 mixer 2] 2 = Some product
    /\ description product = description baseProduct
    /\ category product = category baseProduct
    /\ id product = (id baseProduct ++ "-" ++ fromNumber (2 + 100))%string
    /\ name product
       = (name baseProduct ++ " - Model "
          ++ String (ascii_of_nat (65 + 2 mod 26)) EmptyString)%string
    /\ JS.isUpper (ascii_of_nat (65 + 2 mod 26)) = true.
Proof.
  assert (H : generateMoreProducts halves 0 [mixer] 3
              = Some ([variant halves 0 mixer 0; variant halves 3 mixer 1;
                       variant halves 6 mixer 2], 9)) by reflexivity.
  assert (L : 2 < 3) by lia.
  split; [exact H|]. split; [exact L|].
  exact (generateMoreProducts_round_robin halves 0 [mixer] 3 _ 9 2 H L).
Defined.



(** X4. The ids of the generated products are pairwise distinct. *)
Theorem generateMoreProducts_ids_distinct (rnd : Random) (drawn : nat)
  (baseProducts : list Product) (count : nat)
  (moreProducts : list Product) (drawn' : nat) :
  generateMoreProducts rnd drawn baseProducts count = Some (moreProducts, drawn') ->
  NoDup (map id moreProducts).
Proof.
  intro H. apply generateMoreProducts_elements in H.
  destruct H as (_ & L & N).
  apply NoDup_nth_error. intros i j Hi E.
  rewrite length_map, L in Hi.
  rewrite !nth_error_map in E.
  destruct (N i Hi) as (bi & _ & Hni). rewrite Hni in E. simpl in E.
  destruct (nth_error moreProducts j) as [pj|] eqn:Hnj; [|discriminate].
  assert (Hj : j < count).
  { rewrite <- L. apply nth_error_Some. congruence. }
  destruct (N j Hj) as (bj & _ & Hnj'). rewrite Hnj' in Hnj.
  injection Hnj as <-. injection E as E.
  now apply variant_id_inj in E.
Qed.

Lemma generateMoreProducts_ids_distinct_witness :
  generateMoreProducts halves 0 [mixer; mixer] 2
  = Some ([variant halves 0 mixer 0; variant halves 3 mixer 1], 6)
  /\ NoDup (map id [variant halves 0 mixer 0; variant halves 3 mixer 1]).
Proof.
  assert (H : generateMoreProducts halves 0 [mixer; mixer] 2
              = Some ([variant halves 0 mixer 0; variant halves 3 mixer 1], 6))
    by reflexivity.
  split; [exact H|].
  exact (generateMoreProducts_ids_distinct halves 0 [mixer; mixer] 2 _ 6 H).
Defined.

(** X5. The module-level catalog cannot be built when both source
    lists are empty (the generator throws); otherwise it is the
    featured products, then the best-selling ones, then exactly 200
    generated products, and every product in it has the category of one
    of the featured or best-selling products. *)
Theorem initialExtendedProducts_shape (rnd : Random)
  (featuredProducts bestSellingProducts : list Product) :
  (initialExtendedProducts rnd featuredProducts bestSellingProducts = None
   <-> featuredProducts = [] /\ bestSellingProducts = [])
  /\ (forall catalog,
        initialExtendedProducts rnd featuredProducts bestSellingProducts
        = Some catalog ->
        length catalog
        = length featuredProducts + length bestSellingProducts + 200
        /\ firstn (length featuredProducts + length bestSellingProducts) catalog
           = featuredProducts ++ bestSellingProducts
        /\ (forall product, In product catalog ->
            exists baseProduct,
              In baseProduct (featuredProducts ++ bestSellingProducts)
              /\ category product = category baseProduct)).
Proof.
  unfold initialExtendedProducts, allProducts.
  destruct (generateMoreProducts rnd 0 (featuredProducts ++ bestSellingProducts) 200)
    as [[more d]|] eqn:G.
  - split.
    + split; [discriminate|]. intros [-> ->]. simpl in G.
      unfold generateMoreProducts in G. rewrite generateLoop_empty in G.
      discriminate.
    + intros catalog [= <-].
      apply generateMoreProducts_elements in G. destruct G as (_ & L & N).
      split; [rewrite !length_app, L; lia|].
      split.
      { rewrite <- length_app, firstn_app, Nat.sub_diag, firstn_all. simpl.
        apply app_nil_r. }
      intros p Hp. apply in_app_or in Hp. destruct Hp as [Hp | Hp].
      * now exists p.
      * apply In_nth_error in Hp. destruct Hp as [i Hi].
        assert (Hlt : i < 200).
        { rewrite <- L. apply nth_error_Some. congruence. }
        destruct (N i Hlt) as (b & Hb & Hn). rewrite Hn in Hi.
        injection Hi as <-. exists b. split; [|reflexivity].
        eapply nth_error_In, Hb.
  - split; [|discriminate]. split; [intros _|reflexivity].
    destruct (featuredProducts ++ bestSellingProducts) as [|b0 l] eqn:E.
    + now apply app_eq_nil in E.
    + unfold generateMoreProducts in G.
      destruct (generateLoop_run rnd (b0 :: l) 200 ltac:(discriminate) 0 0 [])
        as (added & E' & _).
      rewrite E' in G. discriminate.
Qed.


Section FirstRender.
Context {collator : JS.Collator}.


End FirstRender.


(** ** Helpers of the render: properties *)

Lemma NoDup_map_inj_in {A B : Type} (f : A -> B) (l : list A) (x y : A) :
  NoDup (map f l) -> In x l -> In y l -> f x = f y -> x = y.
Proof.
  induction l as [|a l IH]; simpl; intros N Hx Hy E; [contradiction|].
  inversion N as [|? ? Na Nl]; subst.
  destruct Hx as [-> | Hx], Hy as [-> | Hy]; auto.
  - elim Na. rewrite E. now apply in_map.
  - elim Na. rewrite <- E. now apply in_map.
Qed.

(** X7. When the category ids are pairwise distinct, [getCategoryName]
    of the id of a listed category with a non-empty name is that
    category's name. *)
Theorem getCategoryName_lookup (categories : list Category.t) (cat : Category.t) :
  NoDup (map Category.id categories) ->
  In cat categories ->
  Category.name cat <> EmptyString ->
  getCategoryName categories (Category.id cat) = Category.name cat.
Proof.
  intros N Hin Hname. unfold getCategoryName.
  destruct (find _ categories) as [found|] eqn:F.
  - apply find_some in F. destruct F as [Hf E]. apply String.eqb_eq in E.
    assert (found = cat) as -> by (eapply NoDup_map_inj_in; eauto).
    apply truthy_spec in Hname. now rewrite Hname.
  - eapply find_none in F; [|exact Hin]. simpl in F.
    now rewrite String.eqb_refl in F.
Qed.

Lemma getCategoryName_lookup_witness :
  let categories :=
    [Category.mk "audio" "Audio"; Category.mk "light" "Lighting"] in
  NoDup (map Category.id categories)
  /\ In (Category.mk "light" "Lighting") categories
  /\ Category.name (Category.mk "light" "Lighting") <> EmptyString
  /\ getCategoryName categories (Category.id (Category.mk "light" "Lighting"))
     = Category.name (Category.mk "light" "Lighting").
Proof.
  intro categories.
  assert (N : NoDup (map Category.id categories)).
  { simpl. constructor.
    - intros [E | []]. discriminate.
    - constructor; [intros [] | constructor]. }
  assert (I : In (Category.mk "light" "Lighting") categories)
    by (right; left; reflexivity).
  assert (M : Category.name (Category.mk "light" "Lighting") <> EmptyString)
    by discriminate.
  split; [exact N|]. split; [exact I|]. split; [exact M|].
  exact (getCategoryName_lookup categories _ N I M).
Defined.

(** X8. [getCategoryName] falls back to the id itself when no listed
    category has that id, and also when those that have it carry an
    empty name. *)
Theorem getCategoryName_fallback (categories : list Category.t)
  (categoryId : string) :
  (forall cat, In cat categories -> Category.id cat = categoryId ->
               Category.name cat = EmptyString) ->
  getCategoryName categories categoryId = categoryId.
Proof.
  intro H. unfold getCategoryName.
  destruct (find _ categories) as [found|] eqn:F; [|reflexivity].
  apply find_some in F. destruct F as [Hf E]. apply String.eqb_eq in E.
  now rewrite (H found Hf E).
Qed.

Lemma getCategoryName_fallback_witness :
  let categories := [Category.mk "audio" "Audio"; Category.mk "misc" ""] in
  (forall cat, In cat categories -> Category.id cat = "misc"%string ->
               Category.name cat = EmptyString)
  /\ getCategoryName categories "misc" = "misc"%string.
Proof.
  intro categories.
  assert (H : forall cat, In cat categories -> Category.id cat = "misc"%string ->
                          Category.name cat = EmptyString).
  { intros cat [<- | [<- | []]] E; [discriminate | reflexivity]. }
  split; [exact H|].
  exact (getCategoryName_fallback categories "misc" H).
Defined.

(** X9. The heading of the page is never the empty string, whatever the
    category list and the state. *)
Theorem heading_not_empty (categories : list Category.t) (s : State) :
  heading categories s <> EmptyString.
Proof.
  unfold heading. destruct (currentCategory s) as [cid|]; [|discriminate].
  destruct (JS.truthy cid) eqn:T; [|discriminate].
  apply truthy_spec in T. unfold getCategoryName.
  destruct (find _ categories) as [found|]; [|exact T].
  destruct (JS.truthy (Category.name found)) eqn:T'; [|exact T].
  now apply truthy_spec in T'.
Qed.

(** ** The search box: properties *)

Lemma equalIgnoringCase_truthy (q q' : string) :
  equalIgnoringCase q q' -> JS.truthy q = JS.truthy q'.
Proof. now destruct 1. Qed.

(** X10. Two search queries that differ only in the case of their
    letters select the same products, in the same order. *)
Theorem search_ignores_query_case (ext : list Product) (q q' : string)
  (c : option string) :
  equalIgnoringCase q q' ->
  filterStage ext q c = filterStage ext q' c.
Proof.
  intro E. unfold filterStage.
  rewrite (equalIgnoringCase_truthy q q' E).
  apply toLowerCase_equalIgnoringCase in E.
  assert (P : forall p, searchPredicate q p = searchPredicate q' p).
  { intro p. unfold searchPredicate. now rewrite E. }
  destruct (JS.truthy q'); [|reflexivity].
  simpl. now rewrite (filter_ext _ _ P).
Qed.

Lemma search_ignores_query_case_witness :
  equalIgnoringCase "Mix" "mIX"
  /\ filterStage catalog13 "Mix" (Some "kitchen"%string)
     = filterStage catalog13 "mIX" (Some "kitchen"%string).
Proof.
  assert (E : equalIgnoringCase "Mix" "mIX").
  { apply toLowerCase_equalIgnoringCase. reflexivity. }
  split; [exact E|].
  exact (search_ignores_query_case catalog13 "Mix" "mIX" (Some "kitchen"%string) E).
Defined.



(** ** The component over its whole life: invariants *)

Lemma slice_incl {A : Type} (l : list A) (i j : nat) : incl (JS.slice l i j) l.
Proof.
  unfold JS.slice. intros x Hx.
  rewrite <- (firstn_skipn i l). apply in_or_app. right.
  rewrite <- (firstn_skipn (j - i) (skipn i l)). apply in_or_app. now left.
Qed.

Lemma sameValue_eq (a b : option string) : JS.sameValue a b = true -> a = b.
Proof.
  destruct a, b; simpl; try discriminate; auto.
  intro E. apply String.eqb_eq in E. now subst.
Qed.

Lemma SortKey_eqb_eq (a b : SortKey) : SortKey_eqb a b = true -> a = b.
Proof. destruct a, b; simpl; congruence. Qed.

Lemma filter_everything {A : Type} (f : A -> bool) (l : list A) :
  (forall x, In x l -> f x = true) -> filter f l = l.
Proof.
  induction l as [|a l IH]; simpl; intro H; [reflexivity|].
  rewrite (H a) by now left. f_equal. apply IH. intros x Hx. apply H. now right.
Qed.

Lemma filter_nothing {A : Type} (f : A -> bool) (l : list A) :
  (forall x, In x l -> f x = false) -> filter f l = [].
Proof.
  induction l as [|a l IH]; simpl; intro H; [reflexivity|].
  rewrite (H a) by now left. apply IH. intros x Hx. apply H. now right.
Qed.

Section Lifetime.
Context {collator : JS.Collator}.

Lemma run_invariant (I : State -> Prop) :
  (forall s e, I s -> I (step s e)) ->
  forall s events, I s -> I (run s events).
Proof.
  intros Hstep s events. revert s.
  induction events as [|e events IH]; intros s H; [exact H|].
  simpl. apply IH, Hstep, H.
Qed.

(** The filter inputs after a render are the ones it was given. *)
Lemma render_inputs (s : State) (q : string) (c : option string) (k : SortKey) :
  localSearchQuery (render s q c k) = q
  /\ currentCategory (render s q c k) = c
  /\ sortBy (render s q c k) = k.
Proof.
  unfold render.
  destruct (String.eqb (localSearchQuery s) q) eqn:E1; simpl.
  2:{ destruct (computeFilteredProducts _ _ _ _) as [ext' r'].
      destruct (sameArray _ _); now simpl. }
  destruct (JS.sameValue (currentCategory s) c) eqn:E2; simpl.
  2:{ destruct (computeFilteredProducts _ _ _ _) as [ext' r'].
      destruct (sameArray _ _); now simpl. }
  destruct (SortKey_eqb (sortBy s) k) eqn:E3; simpl.
  2:{ destruct (computeFilteredProducts _ _ _ _) as [ext' r'].
      destruct (sameArray _ _); now simpl. }
  apply String.eqb_eq in E1. apply sameValue_eq in E2.
  apply SortKey_eqb_eq in E3. auto.
Qed.

(** The memoised list agrees with the filter inputs of the state and
    with the catalog the component was mounted on. *)
Definition coherent (catalog : list Product) (s : State) : Prop :=
  Permutation (extendedProducts s) catalog
  /\ Permutation (filtered s)
       (filter (keeps (localSearchQuery s) (currentCategory s)) catalog)
  /\ StronglySorted (inOrder (sortBy s)) (filtered s).

Lemma compute_coherent (catalog ext : list Product) (q : string)
  (c : option string) (k : SortKey) :
  Permutation ext catalog ->
  Permutation (fst (computeFilteredProducts ext q c k)) catalog
  /\ Permutation (filterSortOutput ext q c k) (filter (keeps q c) catalog)
  /\ StronglySorted (inOrder k) (filterSortOutput ext q c k).
Proof.
  intro P. split; [|split].
  - unfold computeFilteredProducts, sortStage.
    destruct (filterStage ext q c); simpl; [|assumption].
    now rewrite sort_perm.
  - rewrite filterSortOutput_eq, filterStage_items, sort_perm.
    now apply filter_perm.
  - rewrite filterSortOutput_eq. apply sort_inOrder.
Qed.

Lemma render_coherent (catalog : list Product) (s : State) q c k :
  coherent catalog s -> coherent catalog (render s q c k).
Proof.
  intros (P & F & S). unfold render. destruct (_ && _); [now split|].
  pose proof (compute_coherent catalog (extendedProducts s) q c k P)
    as (P' & F' & S').
  unfold filterSortOutput in F', S'.
  destruct (computeFilteredProducts (extendedProducts s) q c k) as [ext' r'].
  simpl in P', F', S'.
  destruct (sameArray _ _); unfold coherent, resetEffect, filtered; simpl;
    auto.
Qed.

Lemma step_coherent (catalog : list Product) (s : State) (e : Event) :
  coherent catalog s -> coherent catalog (step s e).
Proof.
  intro H. destruct e; simpl; try (now apply render_coherent); try exact H.
  - unfold loadMoreProducts. destruct (_ || _); exact H.
  - unfold timeoutCallback. destruct (timers s); exact H.
Qed.

Lemma mount_coherent (catalog : list Product) q c :
  coherent catalog (mount catalog q c).
Proof.
  unfold mount.
  pose proof (compute_coherent catalog catalog q c SortName
                (Permutation_refl _)) as (P' & F' & S').
  unfold filterSortOutput in F', S'.
  destruct (computeFilteredProducts catalog q c SortName) as [ext' r'].
  simpl in P', F', S'. unfold coherent, resetEffect, filtered. simpl. auto.
Qed.

Lemma reachable_coherent (catalog : list Product) q c (events : list Event) :
  coherent catalog (run (mount catalog q c) events).
Proof.
  apply (run_invariant (coherent catalog)).
  - intros s e. apply step_coherent.
  - apply mount_coherent.
Qed.

Lemma coherent_filtered_incl (catalog : list Product) (s : State) :
  coherent catalog s -> incl (filtered s) catalog.
Proof.
  intros (_ & F & _) p Hp.
  apply (Permutation_in _ F) in Hp. now apply filter_In in Hp.
Qed.

(** X12. Running the filter-sort stage again on what it left behind
    changes nothing: the shared catalog array and the returned list are
    the same as after the first run. *)
Theorem filter_sort_stage_idempotent (ext : list Product) (q : string)
  (c : option string) (k : SortKey) :
  let ext1 := fst (computeFilteredProducts ext q c k) in
  fst (computeFilteredProducts ext1 q c k) = ext1
  /\ filterSortOutput ext1 q c k = filterSortOutput ext q c k.
Proof.
  intro ext1. unfold ext1. rewrite !filterSortOutput_eq.
  unfold computeFilteredProducts, sortStage.
  destruct (filterStage ext q c) as [|l] eqn:F.
  - apply filterStage_shared in F.
    pose proof (proj2 (filterStage_shared (JS.sort (comparator k) ext) q c) F)
      as F1.
    simpl. rewrite F1. simpl.
    assert (E : JS.sort (comparator k) (JS.sort (comparator k) ext)
                = JS.sort (comparator k) ext).
    { apply sort_sorted_id; [apply comparator_consistent|].
      apply sort_sorted, comparator_consistent. }
    now rewrite E.
  - simpl. rewrite F. now split.
Qed.

(** X13. In every state the component can reach, the shared catalog
    array is a rearrangement of the catalog it was mounted on, and
    [filteredProducts] is a rearrangement of the catalog's products that
    pass the current search query and category, in the order of the
    current sort key. *)
Theorem filteredProducts_always_current
  (catalog : list Product) (q : string) (c : option string)
  (events : list Event) :
  let s := run (mount catalog q c) events in
  Permutation (extendedProducts s) catalog
  /\ Permutation (filtered s)
       (filter (keeps (localSearchQuery s) (currentCategory s)) catalog)
  /\ StronglySorted (inOrder (sortBy s)) (filtered s).
Proof. apply reachable_coherent. Qed.

End Lifetime.

(** An array value that only holds products of the catalog. *)
Definition withinCatalog (catalog : list Product) (r : ArrayRef) : Prop :=
  match r with
  | ExtendedProducts => True
  | Allocated l => incl l catalog
  end.


Section Pages.
Context {collator : JS.Collator}.

Definition sourced (catalog : list Product) (s : State) : Prop :=
  coherent catalog s
  /\ incl (displayedProducts s) catalog
  /\ Forall (fun t => withinCatalog catalog (capturedProducts t)) (timers s).

Lemma items_incl (catalog ext : list Product) (r : ArrayRef) :
  Permutation ext catalog -> withinCatalog catalog r ->
  incl (items ext r) catalog.
Proof.
  intros P W. destruct r; simpl in *; [|assumption].
  intros p Hp. now apply (Permutation_in _ P).
Qed.

Lemma render_displayed (s : State) q c k :
  displayedProducts (render s q c k) = displayedProducts s
  \/ displayedProducts (render s q c k)
     = JS.slice (filtered (render s q c k)) 0 PRODUCTS_PER_LOAD.
Proof.
  unfold render. destruct (_ && _); [now left|].
  destruct (computeFilteredProducts _ _ _ _) as [ext' r'].
  destruct (sameArray _ _); [now left | now right].
Qed.

Lemma step_sourced (catalog : list Product) (s : State) (e : Event) :
  sourced catalog s -> sourced catalog (step s e).
Proof.
  intros (C & D & T).
  assert (C' : coherent catalog (step s e)) by now apply step_coherent.
  split; [exact C'|].
  destruct (isFilterChange e) eqn:F.
  - destruct (filterChange_is_render s e F) as (q & c & k & E).
    rewrite E in *. rewrite render_timers. split; [|exact T].
    destruct (render_displayed s q c k) as [-> | ->]; [exact D|].
    intros p Hp. apply slice_incl in Hp.
    now apply (coherent_filtered_incl catalog _ C').
  - destruct e; try discriminate; simpl; try (now split).
    + unfold loadMoreProducts. destruct (_ || _); [now split|]. simpl.
      split; [exact D|]. apply Forall_app. split; [exact T|].
      constructor; [|constructor]. simpl.
      pose proof (coherent_filtered_incl catalog s C) as I.
      unfold filtered in I. now destruct (filteredProducts s).
    + unfold timeoutCallback.
      destruct (timers s) as [|t rest] eqn:Ts;
        [split; [exact D | rewrite Ts; constructor]|].
      inversion T as [|? ? Wt Wrest]; subst. simpl.
      split; [|exact Wrest].
      destruct (length _ =? 0); [exact D|].
      apply incl_app; [exact D|].
      intros p Hp. apply slice_incl in Hp.
      destruct C as (P & _). now apply (items_incl catalog _ _ P Wt).
Qed.

Lemma mount_sourced (catalog : list Product) q c :
  sourced catalog (mount catalog q c).
Proof.
  pose proof (mount_coherent catalog q c) as C.
  split; [exact C|].
  destruct (mount_spec catalog q c) as (_ & D & _ & _ & T).
  rewrite D, T. split; [|constructor].
  intros p Hp. rewrite <- slice_prefix in Hp. apply slice_incl in Hp.
  now apply (coherent_filtered_incl catalog _ C).
Qed.

(** X14. Every product the page displays is a product of the catalog
    the component was mounted on, in every reachable state, also after
    a load that completes late. *)
Theorem displayed_products_come_from_catalog
  (catalog : list Product) (q : string) (c : option string)
  (events : list Event) (product : Product) :
  In product (displayedProducts (run (mount catalog q c) events)) ->
  In product catalog.
Proof.
  intro H.
  assert (S : sourced catalog (run (mount catalog q c) events)).
  { apply (run_invariant (sourced catalog)).
    - intros s e. apply step_sourced.
    - apply mount_sourced. }
  destruct S as (_ & D & _). now apply D.
Qed.










End Pages.

Section Counts.
Context {collator : JS.Collator}.

(** X19. While a category is selected, the tab of that category counts
    every product of [filteredProducts] and every other tab counts
    none, in every reachable state. *)
Theorem counts_under_selected_category
  (catalog : list Product) (q : string) (c : option string)
  (events : list Event) (cid : string) :
  currentCategory (run (mount catalog q c) events) = Some cid ->
  cid <> EmptyString ->
  getProductCount (run (mount catalog q c) events) cid
  = length (filtered (run (mount catalog q c) events))
  /\ (forall other, other <> cid ->
        getProductCount (run (mount catalog q c) events) other = 0).
Proof.
  intros Hc Hne.
  destruct (reachable_coherent catalog q c events) as (_ & F & _).
  rewrite Hc in F.
  assert (K : forall p, In p (filtered (run (mount catalog q c) events)) ->
                        category p = cid).
  { intros p Hp. apply (Permutation_in _ F) in Hp.
    apply filter_In in Hp. destruct Hp as [_ Hp].
    unfold keeps in Hp. apply andb_true_iff in Hp. destruct Hp as [_ Hp].
    simpl in Hp. apply truthy_spec in Hne. rewrite Hne in Hp.
    now apply String.eqb_eq in Hp. }
  unfold getProductCount. split.
  - rewrite filter_everything; [reflexivity|].
    intros p Hp. apply String.eqb_eq. now apply K.
  - intros other Ho. rewrite filter_nothing; [reflexivity|].
    intros p Hp. apply String.eqb_neq. rewrite (K p Hp). congruence.
Qed.

(** X20. Choosing another sort key only rearranges [filteredProducts]:
    the number of products and the count of every category tab stay
    the same, in every reachable state. *)
Theorem sort_change_keeps_counts
  (catalog : list Product) (q : string) (c : option string)
  (events : list Event) (k : SortKey) :
  let s := run (mount catalog q c) events in
  let s' := step s (SetSortBy k) in
  Permutation (filtered s') (filtered s)
  /\ length (filtered s') = length (filtered s)
  /\ (forall cid, getProductCount s' cid = getProductCount s cid).
Proof.
  intros s s'.
  pose proof (reachable_coherent catalog q c events) as C. fold s in C.
  pose proof (step_coherent catalog s (SetSortBy k) C) as C'. fold s' in C'.
  destruct C as (_ & F & _). destruct C' as (_ & F' & _).
  unfold s' in F' at 2 3. simpl in F'.
  destruct (render_inputs s (localSearchQuery s) (currentCategory s) k)
    as (Eq & Ec & _).
  rewrite Eq, Ec in F'.
  assert (P : Permutation (filtered s') (filtered s)).
  { rewrite F'. symmetry. exact F. }
  split; [exact P|]. split; [now apply Permutation_length|].
  intro cid. unfold getProductCount.
  now apply Permutation_length, filter_perm.
Qed.

(** X21. "Clear all filters" empties the search query and the category
    and keeps the sort key, and [filteredProducts] then holds the whole
    catalog the component was mounted on. *)
Theorem clear_filters_restores_catalog
  (catalog : list Product) (q : string) (c : option string)
  (events : list Event) :
  let s := run (mount catalog q c) events in
  let s' := step s ClearFilters in
  localSearchQuery s' = EmptyString
  /\ currentCategory s' = None
  /\ sortBy s' = sortBy s
  /\ Permutation (filtered s') catalog.
Proof.
  intros s s'.
  pose proof (reachable_coherent catalog q c events) as C. fold s in C.
  pose proof (step_coherent catalog s ClearFilters C) as (_ & F' & _).
  fold s' in F'.
  destruct (render_inputs s EmptyString None (sortBy s)) as (Eq & Ec & Ek).
  change (render s EmptyString None (sortBy s)) with s' in Eq, Ec, Ek.
  rewrite Eq, Ec in F'.
  rewrite (filter_everything (keeps EmptyString None)) in F'
    by (intros; reflexivity).
  auto.
Qed.

End Counts.

(** ** The scroll handler: properties *)



(** ** The properties above on concrete catalogs *)

Section LifetimeScenarios.
Local Existing Instance codeUnitCollator.

Lemma displayed_products_come_from_catalog_witness :
  In mixer (displayedProducts
              (run (mount catalog13 "" None)
                 [LoadMore; SetLocalSearchQuery "KETTLE"; TimerFires]))
  /\ In mixer catalog13.
Proof.
  assert (H : In mixer (displayedProducts
                (run (mount catalog13 "" None)
                   [LoadMore; SetLocalSearchQuery "KETTLE"; TimerFires])))
    by (vm_compute; right; left; reflexivity).
  split; [exact H|].
  exact (displayed_products_come_from_catalog catalog13 "" None _ mixer H).
Defined.





Lemma counts_under_selected_category_witness :
  let s := run (mount catalog13 "" (Some "audio"%string))
             [SetSortBy SortPriceHigh] in
  currentCategory s = Some "audio"%string
  /\ "audio"%string <> EmptyString
  /\ getProductCount s "audio" = length (filtered s)
  /\ (forall other, other <> "audio"%string -> getProductCount s other = 0).
Proof.
  intro s.
  assert (H : currentCategory s = Some "audio"%string) by reflexivity.
  assert (N : "audio"%string <> EmptyString) by discriminate.
  split; [exact H|]. split; [exact N|].
  exact (counts_under_selected_category catalog13 "" (Some "audio"%string)
           [SetSortBy SortPriceHigh] "audio" H N).
Defined.

End LifetimeScenarios.

Section Indicator.
Context {collator : JS.Collator}.


End Indicator.
